(** * ConcurrentHashMap: a sequential model of the lock-striped hash map

    Shallow embedding of [include/concurrent_hashmap.hpp].  The class
    template [ConcurrentHashMap<Key, Value, NumBuckets>] owns a
    [std::array<Bucket, NumBuckets>]; every bucket pairs a [shared_mutex]
    with a [std::list<pair<Key, Value>>].  Each public member function takes
    the lock of the bucket it works on for the whole of its critical
    section, so the model below describes what one call does to the bucket
    array when it runs alone: the mutexes carry no data and are left out.

    Two identifiers of the header are read as the names they stand for:
    [cont Key&] in [getBucketIndex] as [const Key&], and [bucket.item] in the
    last line of [put] as [bucket.items], the only list that [Bucket] has.
    As committed the header does not compile, and its [put] has no statement
    that appends to [items]; what is verified below is the header with these
    two names put right, and every statement that involves [put] is a
    statement about that reading. *)

From stdpp Require Import base list vector fin strings gmap.

Module CHM.
Section Model.
Context {Key Value : Type} `{EqDecision Key}.

(** [std::hash<Key>{}] is a deterministic function into [size_t]; the
    template argument [NumBuckets] is the length of the array.  The
    remainder [% NumBuckets] is defined only for a non-zero count. *)
Variable hash : Key → nat.
Variable NumBuckets : nat.
Hypothesis NumBuckets_nonzero : NumBuckets ≠ 0.

(** [struct Bucket { mutable shared_mutex mutex; list<pair<Key,Value>> items; }] *)
Record Bucket := mkBucket { items : list (Key * Value) }.

(** [array<Bucket, NumBuckets> buckets_] *)
Record ConcurrentHashMap := mkMap { buckets_ : vec Bucket NumBuckets }.

(** [ConcurrentHashMap() = default]: every bucket starts with an empty list. *)
Definition new_map : ConcurrentHashMap :=
  mkMap (vreplicate NumBuckets (mkBucket [])).

(** [return hash<Key>{}(key) % NumBuckets;] *)
Definition getBucketIndex (key : Key) : nat := hash key mod NumBuckets.

(** The same index as a position of the array. *)
Definition slot (key : Key) : fin NumBuckets :=
  nat_to_fin (Nat.mod_upper_bound (hash key) NumBuckets NumBuckets_nonzero).

(** [return buckets_[getBucketIndex(key)];] *)
Definition getBucket (m : ConcurrentHashMap) (key : Key) : Bucket :=
  buckets_ m !!! slot key.

(** Writing through the reference returned by the non-const [getBucket]. *)
Definition setBucket (m : ConcurrentHashMap) (key : Key) (b : Bucket)
  : ConcurrentHashMap :=
  mkMap (vinsert (slot key) b (buckets_ m)).

(** The loop of [get]: the first pair whose key equals [key] decides. *)
Fixpoint scan (key : Key) (l : list (Key * Value)) : option Value :=
  match l with
  | [] => None
  | (k, v) :: rest => if decide (k = key) then Some v else scan key rest
  end.

Definition get (m : ConcurrentHashMap) (key : Key) : option Value :=
  scan key (items (getBucket m key)).

(** The loop of [put] followed by [emplace_back]: the first pair whose key
    equals [key] has its value assigned and the call returns; when the loop
    runs off the end the new pair goes to the back of the list. *)
Fixpoint upsert (key : Key) (value : Value) (l : list (Key * Value))
  : list (Key * Value) :=
  match l with
  | [] => [(key, value)]
  | (k, v) :: rest =>
      if decide (k = key) then (k, value) :: rest
      else (k, v) :: upsert key value rest
  end.

Definition put (m : ConcurrentHashMap) (key : Key) (value : Value)
  : ConcurrentHashMap :=
  setBucket m key (mkBucket (upsert key value (items (getBucket m key)))).

(** [std::find_if]: the position of the first element satisfying [p],
    the length of the list (the [end()] iterator) when there is none. *)
Fixpoint find_if (p : Key * Value → bool) (l : list (Key * Value)) : nat :=
  match l with
  | [] => 0
  | x :: rest => if p x then 0 else S (find_if p rest)
  end.

(** [[&key](const auto& pair) { return pair.first == key; }] *)
Definition key_is (key : Key) : Key * Value → bool :=
  λ pair, bool_decide (pair.1 = key).

Definition remove (m : ConcurrentHashMap) (key : Key)
  : bool * ConcurrentHashMap :=
  let l := items (getBucket m key) in
  let it := find_if (key_is key) l in
  if decide (it ≠ length l)
  then (true, setBucket m key (mkBucket (delete it l)))
  else (false, m).

(** [optional::has_value] *)
Definition has_value {A} (o : option A) : bool :=
  match o with Some _ => true | None => false end.

Definition contains (m : ConcurrentHashMap) (key : Key) : bool :=
  has_value (get m key).

(** [for (const auto& bucket : buckets_) total += bucket.items.size();] *)
Definition size (m : ConcurrentHashMap) : nat :=
  foldl (λ total bucket, total + length (items bucket)) 0
        (vec_to_list (buckets_ m)).

(** [for (auto& bucket : buckets_) bucket.items.clear();] *)
Definition clear (m : ConcurrentHashMap) : ConcurrentHashMap :=
  mkMap (vmap (λ _ : Bucket, mkBucket []) (buckets_ m)).

(** ** The public interface as calls on one object

    A call is an operation with its arguments; it yields what the member
    function returns together with the bucket array it leaves behind.  The
    [const] member functions hand the array back as they found it. *)
Inductive Op :=
| Get (key : Key)
| Put (key : Key) (value : Value)
| Remove (key : Key)
| Contains (key : Key)
| Size
| Clear.

Inductive Ret :=
| RValue (o : option Value)
| RVoid
| RBool (b : bool)
| RCount (n : nat).

Definition step (op : Op) (m : ConcurrentHashMap) : Ret * ConcurrentHashMap :=
  match op with
  | Get key => (RValue (get m key), m)
  | Put key value => (RVoid, put m key value)
  | Remove key => let r := remove m key in (RBool r.1, r.2)
  | Contains key => (RBool (contains m key), m)
  | Size => (RCount (size m), m)
  | Clear => (RVoid, clear m)
  end.

(** A sequence of calls made one after the other on the same object. *)
Definition run (ops : list Op) (m : ConcurrentHashMap) : ConcurrentHashMap :=
  foldl (λ m op, (step op m).2) m ops.

(** ** Vocabulary of the statements *)

(** The keys stored in a chain, in chain order. *)
Definition keys (b : Bucket) : list Key := (items b).*1.

(** How many entries of the whole structure carry [key]. *)
Definition occurrences (key : Key) (m : ConcurrentHashMap) : nat :=
  sum_list_with (λ b, length (filter (λ k, k = key) (keys b)))
                (vec_to_list (buckets_ m)).

(** The sum of the chain lengths, as the specification words [size]. *)
Definition chain_length_sum (m : ConcurrentHashMap) : nat :=
  sum_list_with (λ b, length (items b)) (vec_to_list (buckets_ m)).

(** Representation invariant: a chain holds no key twice, and every entry
    sits in the bucket its key hashes to. *)
Definition bucket_inv (i : fin NumBuckets) (b : Bucket) : Prop :=
  NoDup (keys b) ∧ ∀ k, k ∈ keys b → slot k = i.

Definition map_inv (m : ConcurrentHashMap) : Prop :=
  ∀ i, bucket_inv i (buckets_ m !!! i).

(** An entry with this key sits somewhere in the structure. *)
Definition present (key : Key) (m : ConcurrentHashMap) : Prop :=
  ∃ i, key ∈ keys (buckets_ m !!! i).

(** The call is a [put] of this key. *)
Definition inserts (key : Key) (op : Op) : bool :=
  match op with
  | Put k _ => bool_decide (k = key)
  | _ => false
  end.

(** Inserting a list of pairs one after the other. *)
Definition put_all (kvs : list (Key * Value)) (m : ConcurrentHashMap)
  : ConcurrentHashMap :=
  foldl (λ m kv, put m kv.1 kv.2) m kvs.

(** ** Further vocabulary: histories and what they return *)

(** The key that a single-key call is made with. *)
Definition op_key (op : Op) : option Key :=
  match op with
  | Get key | Put key _ | Remove key | Contains key => Some key
  | Size | Clear => None
  end.

(** The critical section of a single-key call, on the chain of the one
    bucket whose lock it holds: the loop of [get], the loop and
    [emplace_back] of [put], the [find_if] and [erase] of [remove]. *)
Definition in_bucket (op : Op) (b : Bucket) : Ret * Bucket :=
  match op with
  | Get key => (RValue (scan key (items b)), b)
  | Put key value => (RVoid, mkBucket (upsert key value (items b)))
  | Remove key =>
      let it := find_if (key_is key) (items b) in
      if decide (it ≠ length (items b))
      then (RBool true, mkBucket (delete it (items b)))
      else (RBool false, b)
  | Contains key => (RBool (has_value (scan key (items b))), b)
  | Size | Clear => (RVoid, b)
  end.

(** What a sequence of calls returns, call by call. *)
Fixpoint trace (ops : list Op) (m : ConcurrentHashMap) : list Ret :=
  match ops with
  | [] => []
  | op :: rest => (step op m).1 :: trace rest (step op m).2
  end.

(** All the keys of the structure, bucket after bucket. *)
Definition all_keys (m : ConcurrentHashMap) : list Key :=
  mjoin (keys <$> vec_to_list (buckets_ m)).

(** The calls of [put] in a history. *)
Definition is_put (op : Op) : bool :=
  match op with Put _ _ => true | _ => false end.

Definition count_puts (ops : list Op) : nat :=
  length (filter (λ op, is_put op = true) ops).

End Model.

Arguments Bucket : clear implicits.
Arguments ConcurrentHashMap : clear implicits.
Arguments Op : clear implicits.
Arguments Ret : clear implicits.
Arguments mkMap {Key Value NumBuckets} buckets_.
Arguments buckets_ {Key Value NumBuckets} c.
Arguments slot {Key} hash {NumBuckets} NumBuckets_nonzero key.
Arguments getBucket {Key Value} hash {NumBuckets} NumBuckets_nonzero m key.
Arguments setBucket {Key Value} hash {NumBuckets} NumBuckets_nonzero m key b.
Arguments get {Key Value _} hash {NumBuckets} NumBuckets_nonzero m key.
Arguments put {Key Value _} hash {NumBuckets} NumBuckets_nonzero m key value.
Arguments remove {Key Value _} hash {NumBuckets} NumBuckets_nonzero m key.
Arguments contains {Key Value _} hash {NumBuckets} NumBuckets_nonzero m key.
Arguments size {Key Value NumBuckets} m.
Arguments clear {Key Value NumBuckets} m.
Arguments step {Key Value _} hash {NumBuckets} NumBuckets_nonzero op m.
Arguments run {Key Value _} hash {NumBuckets} NumBuckets_nonzero ops m.
Arguments occurrences {Key Value _ NumBuckets} key m.
Arguments chain_length_sum {Key Value NumBuckets} m.
Arguments bucket_inv {Key Value} hash {NumBuckets} NumBuckets_nonzero i b.
Arguments map_inv {Key Value} hash {NumBuckets} NumBuckets_nonzero m.
Arguments present {Key Value NumBuckets} key m.
Arguments put_all {Key Value _} hash {NumBuckets} NumBuckets_nonzero kvs m.
Arguments in_bucket {Key Value _} op b.
Arguments trace {Key Value _} hash {NumBuckets} NumBuckets_nonzero ops m.
Arguments all_keys {Key Value NumBuckets} m.

End CHM.
Import CHM.

(** ** A concrete instance

    [ConcurrentHashMap<unsigned, string, 4>] with the identity as hash, which
    is what the usual standard libraries give for integers. *)
Module Demo.
Definition hash (k : nat) : nat := k.
Definition NumBuckets : nat := 4.
Definition NumBuckets_nonzero : NumBuckets ≠ 0 := Nat.neq_succ_0 3.
Definition Map := ConcurrentHashMap nat string NumBuckets.
Definition fresh : Map := new_map NumBuckets.
Definition put' := put hash NumBuckets_nonzero (Value := string).
Definition get' := get hash NumBuckets_nonzero (Value := string).
Definition remove' := remove hash NumBuckets_nonzero (Value := string).
(** [put(1,"A"); put(2,"B"); put(5,"E")]: keys 1 and 5 share bucket 1. *)
Definition sample : Map :=
  put' (put' (put' fresh 1 "A") 2 "B") 5 "E".
(** A history of calls made on one object, queries included. *)
Definition history : list (Op nat string) :=
  [Put 1 "A"; Get 1; Put 2 "B"; Put 5 "E"; Put 1 "A2"; Remove 2; Size].
End Demo.

(** * The baseline of the benchmark

    [MutexHashMap<Key, Value>] of [src/benchmark.cpp]: a
    [std::unordered_map] behind one [std::mutex].  As for the striped map,
    one call runs its whole body under the lock, and the model describes what
    a call does to the table when it runs alone. *)
Module MutexHashMap.
Section Model.
Context {Key Value : Type} `{Countable Key}.

(** [std::unordered_map<Key, Value> map_] *)
Record MutexHashMap := mk { map_ : gmap Key Value }.

(** A default-constructed object: the table is empty. *)
Definition new_map : MutexHashMap := mk ∅.

(** [auto it = map_.find(key); if (it != map_.end()) return it->second;
    return std::nullopt;] *)
Definition get (m : MutexHashMap) (key : Key) : option Value :=
  map_ m !! key.

(** [map_[key] = value;] *)
Definition put (m : MutexHashMap) (key : Key) (value : Value) : MutexHashMap :=
  mk (<[key := value]> (map_ m)).

(** [unordered_map::erase(key)]: the number of elements removed and the
    table that is left. *)
Definition erase (key : Key) (t : gmap Key Value) : nat * gmap Key Value :=
  ((if t !! key is Some _ then 1 else 0), delete key t).

(** [return map_.erase(key) > 0;] *)
Definition remove (m : MutexHashMap) (key : Key) : bool * MutexHashMap :=
  let r := erase key (map_ m) in (bool_decide (0 < r.1), mk r.2).

(** The calls that [runBenchmark] makes on the map it is given. *)
Inductive Call :=
| CGet (key : Key)
| CPut (key : Key) (value : Value)
| CRemove (key : Key).

Definition step (c : Call) (m : MutexHashMap) : Ret Value * MutexHashMap :=
  match c with
  | CGet key => (RValue (get m key), m)
  | CPut key value => (RVoid, put m key value)
  | CRemove key => let r := remove m key in (RBool r.1, r.2)
  end.

Fixpoint trace (cs : list Call) (m : MutexHashMap) : list (Ret Value) :=
  match cs with
  | [] => []
  | c :: rest => (step c m).1 :: trace rest (step c m).2
  end.

(** The same call on a [ConcurrentHashMap]. *)
Definition to_op (c : Call) : Op Key Value :=
  match c with
  | CGet key => Get key
  | CPut key value => Put key value
  | CRemove key => Remove key
  end.

(** A striped map and a baseline object that answer every [get] alike. *)
Definition agree (hash : Key → nat) {NumBuckets} (nz : NumBuckets ≠ 0)
    (m : ConcurrentHashMap Key Value NumBuckets) (g : MutexHashMap) : Prop :=
  ∀ key, CHM.get hash nz m key = get g key.

End Model.

Arguments MutexHashMap Key Value {_ _}.
Arguments Call : clear implicits.
End MutexHashMap.

(** * The programs that use the map

    [src/test.cpp] and the functions [runBenchmark] and [testCorrectness] of
    [src/benchmark.cpp] instantiate the map with [int] keys; [std::hash<int>]
    is left open.  The keys and values these programs compute stay far below
    the range of [int], so the integers are those of [Z].  None of these
    programs can be built against the header as committed; they are read
    against the header with its two misspelt names put right, and only what
    their calls do to the map is modelled, not what they print. *)
Module Harness.
Section Programs.
Variable hash : Z → nat.

(** [ConcurrentHashMap<int, V>]: the default [NumBuckets = 1024]. *)
Definition DefaultBuckets : nat := 1024.
Definition DefaultBuckets_nonzero : DefaultBuckets ≠ 0 := Nat.neq_succ_0 1023.

Local Open Scope Z_scope.

(** ** [runBenchmark]: the loop that fills the map before the threads start,
    [for (int i = 0; i < 1000; i++) map.put(i, i * 10);] *)
Definition prepopulate {NumBuckets} (nz : NumBuckets ≠ 0%nat)
    (map : ConcurrentHashMap Z Z NumBuckets) : ConcurrentHashMap Z Z NumBuckets :=
  foldl (λ map i, put hash nz map i (i * 10)) map (seqZ 0 1000).

(** The same loop on the baseline. *)
Definition prepopulate_baseline (map : MutexHashMap.MutexHashMap Z Z)
  : MutexHashMap.MutexHashMap Z Z :=
  foldl (λ map i, MutexHashMap.put map i (i * 10)) map (seqZ 0 1000).

(** ** [runBenchmark]: the call a worker thread makes in one round of its
    loop.  The two comparisons of a random number with a ratio enter as their
    outcomes: [read] for [dist(rng) < config.read_ratio], [write] for
    [dist(rng) < 0.8], which is drawn only when the first fails. *)
Definition worker_call (key : Z) (read write : bool) : MutexHashMap.Call Z Z :=
  if read then MutexHashMap.CGet key
  else if write then MutexHashMap.CPut key (key * 10)
  else MutexHashMap.CRemove key.

(** ** [testCorrectness], test 5: ten threads, thread [t] putting
    [key * 2] under the keys [t * 1000 + i], [i < 1000]. *)
Definition writer (t : Z) : list (Op Z Z) :=
  (λ i, let key := t * 1000 + i in Put key (key * 2)) <$> seqZ 0 1000.

Definition writers : list (list (Op Z Z)) := writer <$> seqZ 0 10.

(** One way the calls of several threads can follow one another: a schedule
    names, step by step, the thread whose next call runs; a step that names
    a thread with nothing left to do, or no thread at all, is skipped.  The
    result is the sequence of calls in the order they ran and what every
    thread still has to do. *)
Fixpoint linearize {A} (schedule : list nat) (threads : list (list A))
  : list A * list (list A) :=
  match schedule with
  | [] => ([], threads)
  | t :: schedule' =>
      match threads !! t with
      | Some (call :: rest) =>
          let r := linearize schedule' (<[t := rest]> threads) in
          (call :: r.1, r.2)
      | _ => linearize schedule' threads
      end
  end.

(** Every thread has run to its end, as after [thread.join()]. *)
Definition all_joined {A} (threads : list (list A)) : bool :=
  forallb (λ l, bool_decide (l = [])) threads.

(** The second batch of threads: [if (!val || *val != key * 2) all_correct =
    false;] for every key. *)
Definition verify {NumBuckets} (nz : NumBuckets ≠ 0%nat)
    (map : ConcurrentHashMap Z Z NumBuckets) : bool :=
  forallb (λ key, bool_decide (get hash nz map key = Some (key * 2)))
          (seqZ 0 10000).

End Programs.
End Harness.

(** The default instantiation, [NumBuckets = 1024], on the scenario
    [put(1,"A"); put(2,"B"); size(); remove(1); get(1); contains(2); clear();
    size()]. *)
Example default_scenario :
  let nz : 1024 ≠ 0 := Nat.neq_succ_0 1023 in
  let m2 := put Demo.hash nz (put Demo.hash nz (new_map 1024) 1 "A") 2 "B" in
  let r := remove Demo.hash nz m2 1 in
  size m2 = 2 ∧ r.1 = true ∧ get Demo.hash nz r.2 1 = None
  ∧ contains Demo.hash nz r.2 2 = true ∧ size (clear r.2) = 0.
Proof. vm_compute. done. Qed.

Example demo_get_1 : Demo.get' Demo.sample 1 = Some "A".
Proof. vm_compute. reflexivity. Qed.

Example demo_get_5 : Demo.get' Demo.sample 5 = Some "E".
Proof. vm_compute. reflexivity. Qed.

Example demo_size : size Demo.sample = 3.
Proof. vm_compute. reflexivity. Qed.

Example demo_remove : (Demo.remove' Demo.sample 1).1 = true
  ∧ Demo.get' (Demo.remove' Demo.sample 1).2 1 = None
  ∧ Demo.get' (Demo.remove' Demo.sample 1).2 5 = Some "E".
Proof. vm_compute. done. Qed.

(** * Chains: the list-level behaviour of the three loops *)
Section Chains.
Context {Key Value : Type} `{EqDecision Key}.
Implicit Types (k key : Key) (v value : Value) (l : list (Key * Value)).

Lemma scan_None key l : scan key l = None ↔ key ∉ l.*1.
Proof.
  induction l as [|[k v] l IH]; simpl.
  - split; [intros _; apply not_elem_of_nil | done].
  - rewrite not_elem_of_cons. case_decide; subst.
    + split; [done | intros [? _]; done].
    + rewrite IH. split; [intros ?; split; [congruence | done] | tauto].
Qed.

Lemma scan_Some_elem key v l : scan key l = Some v → (key, v) ∈ l.
Proof.
  induction l as [|[k w] l IH]; simpl; [done |].
  case_decide; subst.
  - intros [= ->]. left.
  - intros ?. right. auto.
Qed.

Lemma scan_Some_first key v l :
  scan key l = Some v → ∃ l1 l2, l = l1 ++ (key, v) :: l2 ∧ (key ∉ l1.*1).
Proof.
  induction l as [|[k w] l IH]; simpl; [done |].
  case_decide as Hk; subst.
  - intros [= ->]. exists [], l. split; [done | apply not_elem_of_nil].
  - intros (l1 & l2 & -> & Hl1)%IH. exists ((k, w) :: l1), l2.
    split; [done |]. simpl. rewrite not_elem_of_cons. auto.
Qed.

Lemma scan_is_Some key l : is_Some (scan key l) ↔ key ∈ l.*1.
Proof.
  rewrite <-not_eq_None_Some, scan_None.
  split; [apply dec_stable | auto].
Qed.

Lemma has_value_scan key l : has_value (scan key l) = bool_decide (key ∈ l.*1).
Proof.
  destruct (scan key l) eqn:E; simpl; symmetry.
  - apply bool_decide_eq_true, scan_is_Some. by rewrite E.
  - apply bool_decide_eq_false. by apply scan_None.
Qed.

Lemma scan_upsert_same key value l : scan key (upsert key value l) = Some value.
Proof.
  induction l as [|[k w] l IH]; simpl.
  - by rewrite decide_True.
  - case_decide; simpl; [by rewrite decide_True | by rewrite decide_False].
Qed.

Lemma scan_upsert_ne key key' value l :
  key ≠ key' → scan key' (upsert key value l) = scan key' l.
Proof.
  intros Hne. induction l as [|[k w] l IH]; simpl.
  - by rewrite decide_False.
  - destruct (decide (k = key)) as [->|]; simpl.
    + by rewrite !decide_False.
    + by rewrite IH.
Qed.

(** A matching key: the first such entry keeps its place and its key and
    takes the new value; nothing else moves. *)
Lemma upsert_present key value l :
  key ∈ l.*1 →
  ∃ l1 old l2, l = l1 ++ (key, old) :: l2 ∧ (key ∉ l1.*1)
               ∧ upsert key value l = l1 ++ (key, value) :: l2.
Proof.
  induction l as [|[k w] l IH]; simpl.
  - intros ?%elem_of_nil. done.
  - intros Hin. destruct (decide (k = key)) as [->|Hne].
    + exists [], w, l. split_and!; [done | apply not_elem_of_nil | done].
    + apply elem_of_cons in Hin as [?|Hin]; [congruence |].
      destruct (IH Hin) as (l1 & old & l2 & -> & Hl1 & ->).
      exists ((k, w) :: l1), old, l2. split_and!; [done | | done].
      simpl. rewrite not_elem_of_cons. auto.
Qed.

(** No matching key: the new entry goes to the back. *)
Lemma upsert_absent key value l :
  key ∉ l.*1 → upsert key value l = l ++ [(key, value)].
Proof.
  induction l as [|[k w] l IH]; simpl; [done |].
  rewrite not_elem_of_cons. intros [Hne Hl].
  rewrite decide_False by congruence. by rewrite IH.
Qed.

Lemma upsert_keys_present key value l :
  key ∈ l.*1 → (upsert key value l).*1 = l.*1.
Proof.
  intros Hin.
  destruct (upsert_present key value l Hin) as (l1 & old & l2 & -> & _ & ->).
  by rewrite !fmap_app.
Qed.

Lemma upsert_keys_absent key value l :
  key ∉ l.*1 → (upsert key value l).*1 = l.*1 ++ [key].
Proof. intros Hin. by rewrite upsert_absent, fmap_app. Qed.

Lemma upsert_length key value l :
  length (upsert key value l)
  = length l + (if has_value (scan key l) then 0 else 1).
Proof.
  rewrite has_value_scan. case_bool_decide as Hin.
  - pose proof (f_equal length (upsert_keys_present key value l Hin)) as Hk.
    rewrite !length_fmap in Hk. lia.
  - rewrite upsert_absent, length_app by done. done.
Qed.

Lemma upsert_NoDup key value l : NoDup l.*1 → NoDup (upsert key value l).*1.
Proof.
  intros Hnd. destruct (decide (key ∈ l.*1)).
  - by rewrite upsert_keys_present.
  - rewrite upsert_keys_absent by done.
    apply NoDup_app. split_and!; [done | | apply NoDup_singleton].
    intros x Hx ->%list_elem_of_singleton. done.
Qed.

Lemma upsert_elem_of key key' value l :
  key' ∈ (upsert key value l).*1 ↔ key' = key ∨ key' ∈ l.*1.
Proof.
  destruct (decide (key ∈ l.*1)).
  - rewrite upsert_keys_present by done. split; [auto | intros [->|?]; done].
  - rewrite upsert_keys_absent, elem_of_app, list_elem_of_singleton by done.
    tauto.
Qed.

(** [find_if] with the predicate of [remove]. *)
Lemma find_if_le key l : find_if (key_is key) l ≤ length l.
Proof.
  induction l as [|[k w] l IH]; simpl; [lia |].
  unfold key_is at 1. simpl. case_bool_decide; lia.
Qed.

Lemma find_if_end key l : find_if (key_is key) l = length l ↔ key ∉ l.*1.
Proof.
  induction l as [|[k w] l IH]; simpl.
  - split; [intros _; apply not_elem_of_nil | done].
  - unfold key_is at 1. simpl. rewrite not_elem_of_cons.
    case_bool_decide; subst.
    + split; [done | intros [? _]; done].
    + rewrite <-IH. split; [intros [= ?]; split; [congruence | done] | intros [_ ->]; done].
Qed.

Lemma find_if_scan key l :
  find_if (key_is key) l = length l ↔ scan key l = None.
Proof. by rewrite find_if_end, scan_None. Qed.

(** What [erase] at the position found by [find_if] leaves: the entries
    before the first match and the entries after it. *)
Lemma erase_found key l :
  key ∈ l.*1 →
  ∃ l1 old l2, l = l1 ++ (key, old) :: l2 ∧ (key ∉ l1.*1)
               ∧ delete (find_if (key_is key) l) l = l1 ++ l2.
Proof.
  induction l as [|[k w] l IH]; simpl.
  - intros ?%elem_of_nil. done.
  - intros Hin. unfold key_is at 1. simpl. case_bool_decide as Hk.
    + subst. exists [], w, l. split_and!; [done | apply not_elem_of_nil | done].
    + apply elem_of_cons in Hin as [?|Hin]; [congruence |].
      destruct (IH Hin) as (l1 & old & l2 & Hl & Hl1 & Hdel).
      exists ((k, w) :: l1), old, l2. split_and!.
      * by rewrite Hl at 1.
      * simpl. rewrite not_elem_of_cons. auto.
      * simpl. by rewrite Hdel.
Qed.

Lemma scan_app key l1 l2 :
  scan key (l1 ++ l2)
  = match scan key l1 with Some v => Some v | None => scan key l2 end.
Proof.
  induction l1 as [|[k w] l1 IH]; simpl; [done |].
  by case_decide.
Qed.

Lemma scan_skip key key' old l1 l2 :
  key ≠ key' → scan key' (l1 ++ (key, old) :: l2) = scan key' (l1 ++ l2).
Proof.
  intros Hne. rewrite !scan_app. simpl. by rewrite decide_False.
Qed.

(** Counting the entries of a chain that carry a given key. *)
Lemma count_key_absent key (ks : list Key) :
  key ∉ ks → length (filter (λ k, k = key) ks) = 0.
Proof.
  induction ks as [|k ks IH]; [done |].
  rewrite not_elem_of_cons. intros [Hne Hks].
  rewrite filter_cons_False by congruence. auto.
Qed.

Lemma count_key_NoDup key (ks : list Key) :
  NoDup ks → key ∈ ks → length (filter (λ k, k = key) ks) = 1.
Proof.
  induction 1 as [|k ks Hk Hnd IH]; [intros ?%elem_of_nil; done |].
  intros [->|Hin]%elem_of_cons.
  - rewrite filter_cons_True by done. simpl. by rewrite count_key_absent.
  - rewrite filter_cons_False by (intros ->; done). auto.
Qed.

Lemma upsert_upsert key v1 v2 l :
  upsert key v2 (upsert key v1 l) = upsert key v2 l.
Proof.
  induction l as [|[k w] l IH]; simpl.
  - by rewrite decide_True.
  - destruct (decide (k = key)) as [->|Hne]; simpl.
    + by rewrite decide_True.
    + by rewrite decide_False, IH.
Qed.

Lemma upsert_stored key value l :
  scan key l = Some value → upsert key value l = l.
Proof.
  induction l as [|[k w] l IH]; simpl; [done |].
  case_decide; [by intros [= ->] | intros ?; by rewrite IH].
Qed.

(** Erasing what [upsert] has just appended gives the chain back. *)
Lemma erase_appended key value l :
  key ∉ l.*1 →
  find_if (key_is key) (upsert key value l) = length l
  ∧ delete (length l) (upsert key value l) = l.
Proof.
  induction l as [|[k w] l IH]; simpl.
  - intros _. unfold key_is. simpl. by rewrite bool_decide_eq_true_2.
  - rewrite not_elem_of_cons. intros [Hne Hl]. destruct (IH Hl) as [Hf Hd].
    rewrite decide_False by congruence. simpl.
    unfold key_is at 1. simpl. rewrite bool_decide_eq_false_2 by congruence.
    by rewrite Hf, Hd.
Qed.

Lemma NoDup_count (ks : list Key) :
  (∀ key, length (filter (λ k, k = key) ks) ≤ 1) → NoDup ks.
Proof.
  induction ks as [|k ks IH]; intros Hc; [apply NoDup_nil_2 |].
  apply NoDup_cons. split.
  - intros Hin. specialize (Hc k). rewrite filter_cons_True in Hc by done.
    simpl in Hc.
    assert (k ∈ filter (λ k', k' = k) ks) as Hin'
      by by apply list_elem_of_filter.
    destruct (filter (λ k', k' = k) ks); [by apply elem_of_nil in Hin' |].
    simpl in Hc. lia.
  - apply IH. intros key. specialize (Hc key).
    destruct (decide (k = key)).
    + rewrite filter_cons_True in Hc by done. simpl in Hc. lia.
    + by rewrite filter_cons_False in Hc.
Qed.

End Chains.

(** * The bucket array: how the member functions act on the whole map *)
Section Proofs.
Context {Key Value : Type} `{EqDecision Key}.
Variable hash : Key → nat.
Variable NumBuckets : nat.
Hypothesis NumBuckets_nonzero : NumBuckets ≠ 0.

Local Abbreviation Map := (ConcurrentHashMap Key Value NumBuckets).
Local Abbreviation new_map := (@new_map Key Value NumBuckets).
Local Abbreviation slot := (slot hash NumBuckets_nonzero).
Local Abbreviation getBucket := (getBucket hash NumBuckets_nonzero).
Local Abbreviation setBucket := (setBucket hash NumBuckets_nonzero).
Local Abbreviation get := (get hash NumBuckets_nonzero).
Local Abbreviation put := (put hash NumBuckets_nonzero).
Local Abbreviation remove := (remove hash NumBuckets_nonzero).
Local Abbreviation contains := (contains hash NumBuckets_nonzero).
Local Abbreviation step := (step hash NumBuckets_nonzero).
Local Abbreviation run := (run hash NumBuckets_nonzero).
Local Abbreviation bucket_inv := (bucket_inv hash NumBuckets_nonzero).
Local Abbreviation map_inv := (map_inv hash NumBuckets_nonzero).
Local Abbreviation put_all := (put_all hash NumBuckets_nonzero).
Local Abbreviation trace := (trace hash NumBuckets_nonzero).

Implicit Types (m : Map) (k key : Key) (v value : Value)
  (b : Bucket Key Value) (i j : fin NumBuckets).

(** ** Indexing *)

Lemma slot_index key : fin_to_nat (slot key) = getBucketIndex hash NumBuckets key.
Proof. apply fin_to_nat_to_fin. Qed.

Lemma slot_eq key key' :
  slot key = slot key' ↔ hash key mod NumBuckets = hash key' mod NumBuckets.
Proof.
  rewrite <-(inj_iff fin_to_nat), !slot_index. done.
Qed.

Lemma map_eq m m' : (∀ i, buckets_ m !!! i = buckets_ m' !!! i) → m = m'.
Proof. destruct m, m'; simpl. intros ?%vec_eq. by f_equal. Qed.

Lemma setBucket_lookup m key b i :
  buckets_ (setBucket m key b) !!! i
  = if decide (i = slot key) then b else buckets_ m !!! i.
Proof.
  simpl. case_decide as Hi.
  - subst. apply vlookup_insert.
  - by apply vlookup_insert_ne.
Qed.

Lemma getBucket_setBucket m key b : getBucket (setBucket m key b) key = b.
Proof. unfold CHM.getBucket. rewrite setBucket_lookup. by rewrite decide_True. Qed.

Lemma setBucket_getBucket m key : setBucket m key (getBucket m key) = m.
Proof.
  apply map_eq. intros i. rewrite setBucket_lookup.
  case_decide; by subst.
Qed.

(** ** Sums over the array *)

Lemma sum_list_with_insert {A} (f : A → nat) (l : list A) n x y :
  l !! n = Some y →
  sum_list_with f (<[n:=x]> l) + f y = sum_list_with f l + f x.
Proof.
  revert n. induction l as [|a l IH]; intros [|n]; simpl; try done.
  - intros [= ->]. lia.
  - intros Hn. specialize (IH _ Hn). lia.
Qed.

Lemma sum_setBucket (f : Bucket Key Value → nat) m key b :
  sum_list_with f (vec_to_list (buckets_ (setBucket m key b)))
    + f (getBucket m key)
  = sum_list_with f (vec_to_list (buckets_ m)) + f b.
Proof.
  simpl. rewrite vec_to_list_insert.
  apply sum_list_with_insert. by apply vlookup_lookup.
Qed.

Lemma foldl_plus {A} (f : A → nat) (l : list A) a :
  foldl (λ total x, total + f x) a l = a + sum_list_with f l.
Proof.
  revert a. induction l as [|x l IH]; intros a; simpl; [lia |].
  rewrite IH. lia.
Qed.

Lemma size_chain_length_sum m : size m = chain_length_sum m.
Proof. unfold size, chain_length_sum. by rewrite foldl_plus. Qed.

Lemma size_setBucket m key b :
  size (setBucket m key b) + length (items (getBucket m key))
  = size m + length (items b).
Proof.
  rewrite !size_chain_length_sum.
  apply (sum_setBucket (λ b, length (items b))).
Qed.

(** ** [get] and [put] *)

Lemma get_put_same m key value : get (put m key value) key = Some value.
Proof.
  unfold CHM.get, CHM.put.
  rewrite getBucket_setBucket. apply scan_upsert_same.
Qed.

Lemma get_put_ne m key key' value :
  key ≠ key' → get (put m key value) key' = get m key'.
Proof.
  intros Hne. unfold CHM.get, CHM.put, CHM.getBucket.
  rewrite setBucket_lookup. case_decide as Hs; [|done].
  simpl. rewrite Hs. by apply scan_upsert_ne.
Qed.

Lemma contains_keys m key :
  contains m key = bool_decide (key ∈ keys (getBucket m key)).
Proof. apply has_value_scan. Qed.

Lemma size_put m key value :
  size (put m key value) = size m + (if contains m key then 0 else 1).
Proof.
  pose proof (size_setBucket m key
    (mkBucket (upsert key value (items (getBucket m key))))) as Hs.
  simpl in Hs. rewrite upsert_length in Hs.
  unfold CHM.put, CHM.contains, CHM.get. lia.
Qed.

(** ** [remove] *)

Lemma remove_absent m key :
  key ∉ keys (getBucket m key) → remove m key = (false, m).
Proof.
  intros Hk. unfold CHM.remove. simpl.
  apply (find_if_end (Value := Value)) in Hk.
  rewrite decide_False; [done |]. intros Hne. by apply Hne.
Qed.

Lemma remove_present m key :
  key ∈ keys (getBucket m key) →
  ∃ l1 old l2,
    items (getBucket m key) = l1 ++ (key, old) :: l2 ∧ (key ∉ l1.*1)
    ∧ remove m key = (true, setBucket m key (mkBucket (l1 ++ l2))).
Proof.
  intros Hk. destruct (erase_found key _ Hk) as (l1 & old & l2 & Hl & Hl1 & Hdel).
  exists l1, old, l2. split_and!; [done.. |].
  unfold CHM.remove. simpl. rewrite Hdel.
  rewrite decide_True; [done |].
  intros Hend. by apply (find_if_end (Value := Value)) in Hend.
Qed.

Lemma remove_result m key : (remove m key).1 = contains m key.
Proof.
  rewrite contains_keys. case_bool_decide as Hk.
  - by destruct (remove_present m key Hk) as (? & ? & ? & _ & _ & ->).
  - by rewrite remove_absent.
Qed.

Lemma get_remove_ne m key key' :
  key ≠ key' → get (remove m key).2 key' = get m key'.
Proof.
  intros Hne. destruct (decide (key ∈ keys (getBucket m key))) as [Hk|Hk].
  - destruct (remove_present m key Hk) as (l1 & old & l2 & Hl & _ & ->). simpl.
    unfold CHM.get, CHM.getBucket. rewrite setBucket_lookup.
    case_decide as Hs; [|done]. simpl. rewrite Hs.
    fold (getBucket m key). rewrite Hl. symmetry. by apply scan_skip.
  - by rewrite remove_absent.
Qed.

Lemma size_remove m key :
  size (remove m key).2 + (if contains m key then 1 else 0) = size m.
Proof.
  rewrite contains_keys. case_bool_decide as Hk.
  - destruct (remove_present m key Hk) as (l1 & old & l2 & Hl & _ & ->). simpl.
    pose proof (size_setBucket m key (mkBucket (l1 ++ l2))) as Hs.
    rewrite Hl in Hs. simpl in Hs. rewrite !length_app in Hs. simpl in Hs.
    unfold CHM.setBucket in *. lia.
  - rewrite remove_absent by done. simpl. lia.
Qed.

(** ** [clear] and the fresh map *)

Lemma new_map_lookup i :
  buckets_ new_map !!! i = mkBucket [].
Proof. apply vlookup_replicate. Qed.

Lemma clear_new_map m : clear m = new_map.
Proof.
  apply map_eq. intros i. rewrite new_map_lookup. simpl. by rewrite vlookup_map.
Qed.

Lemma get_new_map key : get new_map key = None.
Proof. unfold CHM.get, CHM.getBucket. by rewrite new_map_lookup. Qed.

Lemma sum_list_with_zero {A} (f : A → nat) (l : list A) :
  Forall (λ x, f x = 0) l → sum_list_with f l = 0.
Proof. induction 1 as [|x l Hx _ IH]; simpl; lia. Qed.

Lemma size_new_map : size new_map = 0.
Proof.
  rewrite size_chain_length_sum. apply sum_list_with_zero.
  apply Forall_vlookup. intros i. by rewrite new_map_lookup.
Qed.

(** ** The representation invariant *)

Lemma map_inv_new : map_inv new_map.
Proof.
  intros i. rewrite new_map_lookup. split; [apply NoDup_nil_2 |].
  intros k ?%elem_of_nil. done.
Qed.

Lemma map_inv_setBucket m key b :
  map_inv m → bucket_inv (slot key) b → map_inv (setBucket m key b).
Proof.
  intros Hm Hb i. rewrite setBucket_lookup. case_decide; subst; auto.
Qed.

Lemma map_inv_put m key value : map_inv m → map_inv (put m key value).
Proof.
  intros Hm. apply map_inv_setBucket; [done |].
  destruct (Hm (slot key)) as [Hnd Hslot]. split; unfold keys in *; simpl.
  - by apply upsert_NoDup.
  - intros k [->|Hk]%upsert_elem_of; auto.
Qed.

Lemma map_inv_remove m key : map_inv m → map_inv (remove m key).2.
Proof.
  intros Hm. destruct (decide (key ∈ keys (getBucket m key))) as [Hk|Hk].
  - destruct (remove_present m key Hk) as (l1 & old & l2 & Hl & _ & ->). simpl.
    apply map_inv_setBucket; [done |].
    destruct (Hm (slot key)) as [Hnd Hslot].
    fold (getBucket m key) in Hnd, Hslot. unfold keys in Hnd, Hslot.
    rewrite Hl, fmap_app in Hnd, Hslot. simpl in Hnd, Hslot.
    split; unfold keys; simpl; rewrite fmap_app.
    + apply NoDup_app in Hnd as (H1 & H12 & [_ H2]%NoDup_cons).
      apply NoDup_app. split_and!; [done | | done].
      intros x Hx Hx2. apply (H12 x Hx). by right.
    + intros k Hin. apply Hslot. rewrite elem_of_app in *.
      destruct Hin; [by left | right; by right].
  - by rewrite remove_absent.
Qed.

Lemma map_inv_clear m : map_inv (clear m).
Proof. rewrite clear_new_map. apply map_inv_new. Qed.

Lemma map_inv_step op m : map_inv m → map_inv (step op m).2.
Proof.
  destruct op; simpl; auto using map_inv_put, map_inv_remove, map_inv_clear.
Qed.

Lemma run_cons op ops m : run (op :: ops) m = run ops (step op m).2.
Proof. done. Qed.

Lemma run_snoc ops op m : run (ops ++ [op]) m = (step op (run ops m)).2.
Proof. unfold CHM.run. by rewrite foldl_app. Qed.

Lemma map_inv_run ops m : map_inv m → map_inv (run ops m).
Proof.
  revert m. induction ops as [|op ops IH]; intros m Hm; [done |].
  rewrite run_cons. by apply IH, map_inv_step.
Qed.

(** Under the invariant a key can only be met in its own bucket. *)
Lemma present_slot m key :
  map_inv m → present key m ↔ key ∈ keys (getBucket m key).
Proof.
  intros Hm. split; [|intros ?; by exists (slot key)].
  intros [i Hi]. destruct (Hm i) as [_ Hslot].
  pose proof (Hslot key Hi) as Hi'. by subst i.
Qed.

Lemma present_contains m key :
  map_inv m → present key m ↔ contains m key = true.
Proof.
  intros Hm. rewrite present_slot, contains_keys by done.
  by rewrite bool_decide_eq_true.
Qed.

Lemma get_remove_same m key : map_inv m → get (remove m key).2 key = None.
Proof.
  intros Hm. destruct (decide (key ∈ keys (getBucket m key))) as [Hk|Hk].
  - destruct (remove_present m key Hk) as (l1 & old & l2 & Hl & Hl1 & ->). simpl.
    unfold CHM.get. rewrite getBucket_setBucket. simpl.
    apply scan_None. rewrite fmap_app, elem_of_app. intros [?|Hl2]; [done |].
    destruct (Hm (slot key)) as [Hnd _].
    fold (getBucket m key) in Hnd. unfold keys in Hnd. rewrite Hl, fmap_app in Hnd.
    apply NoDup_app in Hnd as (_ & _ & [Hnot _]%NoDup_cons). done.
  - rewrite remove_absent by done. simpl. by apply scan_None.
Qed.

Lemma occurrences_inv m key :
  map_inv m →
  occurrences key m = length (filter (λ k, k = key) (keys (getBucket m key))).
Proof.
  intros Hm. unfold occurrences.
  pose proof (sum_setBucket
    (λ b, length (filter (λ k, k = key) (keys b))) m key (mkBucket [])) as Hs.
  rewrite sum_list_with_zero in Hs; [simpl in Hs; lia |].
  apply Forall_vlookup. intros i.
  change (vinsert _ _ _) with (buckets_ (setBucket m key (mkBucket []))).
  rewrite setBucket_lookup. case_decide as Hi; [done |].
  apply count_key_absent. intros Hin.
  destruct (Hm i) as [_ Hslot]. apply Hi. symmetry. auto.
Qed.

Lemma occurrences_le_1 m key : map_inv m → occurrences key m ≤ 1.
Proof.
  intros Hm. rewrite occurrences_inv by done.
  destruct (decide (key ∈ keys (getBucket m key))) as [Hk|Hk].
  - rewrite count_key_NoDup; [lia | apply Hm | done].
  - rewrite count_key_absent by done. lia.
Qed.

Lemma occurrences_present m key :
  map_inv m → key ∈ keys (getBucket m key) → occurrences key m = 1.
Proof.
  intros Hm Hk. rewrite occurrences_inv by done.
  apply count_key_NoDup; [apply Hm | done].
Qed.

Lemma put_key_present m key value : key ∈ keys (getBucket (put m key value) key).
Proof.
  apply scan_is_Some. fold (get (put m key value) key).
  by rewrite get_put_same.
Qed.

Lemma contains_put_same m key value : contains (put m key value) key = true.
Proof. unfold CHM.contains. by rewrite get_put_same. Qed.

Lemma get_None_absent m key : get m key = None ↔ key ∉ keys (getBucket m key).
Proof. apply scan_None. Qed.

Lemma put_frame m key value i :
  i ≠ slot key → buckets_ (put m key value) !!! i = buckets_ m !!! i.
Proof.
  intros Hi. unfold CHM.put. rewrite setBucket_lookup. by rewrite decide_False.
Qed.

Lemma remove_frame m key i :
  i ≠ slot key → buckets_ (remove m key).2 !!! i = buckets_ m !!! i.
Proof.
  intros Hi. destruct (decide (key ∈ keys (getBucket m key))) as [Hk|Hk].
  - destruct (remove_present m key Hk) as (l1 & old & l2 & _ & _ & ->).
    cbn [snd]. rewrite setBucket_lookup. by rewrite decide_False.
  - by rewrite remove_absent.
Qed.

Lemma put_all_cons k v kvs m :
  put_all ((k, v) :: kvs) m = put_all kvs (put m k v).
Proof. done. Qed.

Lemma size_put_all kvs m :
  NoDup kvs.*1 → (∀ k, k ∈ kvs.*1 → get m k = None) →
  size (put_all kvs m) = size m + length kvs.
Proof.
  revert m. induction kvs as [|[k v] kvs IH]; intros m Hnd Hfresh.
  - unfold CHM.put_all. simpl. lia.
  - apply NoDup_cons in Hnd as [Hk Hnd]. rewrite put_all_cons, IH; [|done|].
    + rewrite size_put. unfold CHM.contains.
      rewrite (Hfresh k) by left. simpl. lia.
    + intros k' Hk'. rewrite get_put_ne by (intros ->; done).
      apply Hfresh. by right.
Qed.

Lemma get_run_never_inserted ops key :
  Forall (λ op, inserts key op = false) ops → get (run ops new_map) key = None.
Proof.
  induction ops as [|op ops IH] using rev_ind; intros Hops.
  - apply get_new_map.
  - apply Forall_app in Hops as [Hops [Hop _]%Forall_cons].
    specialize (IH Hops). rewrite run_snoc.
    destruct op as [k|k v|k|k| |]; simpl in *; try done.
    + apply bool_decide_eq_false in Hop. by rewrite get_put_ne.
    + destruct (decide (k = key)) as [->|Hne].
      * rewrite remove_absent; [done | by apply get_None_absent].
      * by rewrite get_remove_ne.
    + rewrite clear_new_map. apply get_new_map.
Qed.

(** ** Every array that satisfies the invariant is the state after some
    history of calls, so quantifying over histories loses no state. *)

Lemma setBucket_setBucket m key b b' :
  setBucket (setBucket m key b) key b' = setBucket m key b'.
Proof.
  apply map_eq. intros i. rewrite !setBucket_lookup. by case_decide.
Qed.

Lemma size_0_new_map m : size m = 0 → m = new_map.
Proof.
  rewrite size_chain_length_sum. unfold chain_length_sum. intros Hs.
  apply map_eq. intros i. rewrite new_map_lookup.
  assert (length (items (buckets_ m !!! i)) = 0) as Hi.
  { assert (Forall (λ b, length (items b) = 0) (vec_to_list (buckets_ m))) as Hall.
    { revert Hs. generalize (vec_to_list (buckets_ m)).
      induction l as [|b l IH]; simpl; [constructor |].
      intros Hs. constructor; [simpl; lia |]. apply IH. lia. }
    by apply (Forall_vlookup_1 _ _ i) in Hall. }
  destruct (buckets_ m !!! i) as [l]. simpl in Hi.
  by apply nil_length_inv in Hi as ->.
Qed.

Lemma size_pos_nonempty m :
  size m ≠ 0 → ∃ i, items (buckets_ m !!! i) ≠ [].
Proof.
  intros Hs. destruct (decide (Forall (λ b, items b = [])
                                 (vec_to_list (buckets_ m)))) as [Hall|Hex].
  - destruct Hs. rewrite size_chain_length_sum. apply sum_list_with_zero.
    eapply Forall_impl; [exact Hall |]. by intros b ->.
  - apply not_Forall_Exists in Hex; [|solve_decision].
    apply Exists_vlookup in Hex as [i Hi]. by exists i.
Qed.

Lemma inv_reachable m : map_inv m → ∃ ops, run ops new_map = m.
Proof.
  remember (size m) as n eqn:Hn. revert m Hn.
  induction n as [n IH] using lt_wf_ind. intros m -> Hm.
  destruct (decide (size m = 0)) as [H0|Hpos].
  { exists []. symmetry. by apply size_0_new_map. }
  destruct (size_pos_nonempty m Hpos) as [i Hi].
  destruct (Hm i) as [Hnd Hslot]. unfold keys in Hnd, Hslot.
  destruct (items (buckets_ m !!! i)) as [|e l] eqn:Hl using rev_ind; [done |].
  clear IHl Hi. destruct e as [k v].
  rewrite fmap_app in Hnd, Hslot. simpl in Hnd, Hslot.
  assert (slot k = i) as <-.
  { apply Hslot. rewrite elem_of_app. right. left. }
  apply NoDup_app in Hnd as (Hndl & Hfresh & _).
  set (m' := setBucket m k (mkBucket l)).
  assert (map_inv m') as Hm'.
  { apply map_inv_setBucket; [done |]. split; [done |].
    intros k' Hk'. apply Hslot. rewrite elem_of_app. by left. }
  assert (size m' < size m) as Hlt.
  { pose proof (size_setBucket m k (mkBucket l)) as Hs.
    unfold CHM.getBucket in Hs. rewrite Hl, length_app in Hs.
    simpl in Hs. fold m' in Hs. lia. }
  destruct (IH _ Hlt m' eq_refl Hm') as [ops Hops].
  exists (ops ++ [Put k v]). rewrite run_snoc, Hops. simpl.
  unfold CHM.put, m'. rewrite getBucket_setBucket, setBucket_setBucket. simpl.
  rewrite upsert_absent.
  - apply map_eq. intros i. rewrite setBucket_lookup.
    case_decide as Hi; [subst i | done].
    destruct (buckets_ m !!! slot k) as [l0]. simpl in Hl. by subst l0.
  - intros Hk. apply (Hfresh k Hk). left.
Qed.

Lemma reachable_iff_inv m : map_inv m ↔ ∃ ops, run ops new_map = m.
Proof.
  split; [apply inv_reachable |].
  intros [ops <-]. apply map_inv_run, map_inv_new.
Qed.

(** * The specified properties *)

(** The upsert that [put] is written to perform (C1).  The header as
    committed does not perform its second half: the last line of [put] names
    [bucket.item], a member that [Bucket] does not declare.  With that line
    naming [bucket.items], as this file reads it, the following holds.  When
    the key's bucket already holds an entry with that key, the first such
    entry keeps its position and its key and has its value overwritten, and
    nothing else in the chain moves; otherwise the pair [(key, value)] is
    appended at the back of the chain.  After [put(key, v1)] followed by
    [put(key, v2)], [get(key)] returns [v2], the two calls together have
    added one entry to [size()] when the key was new and none when it was
    there already, and on a map built from the fresh one by calls of the
    interface exactly one entry of the whole structure carries the key. *)
Theorem put_upsert m ops key v1 v2 :
  (key ∈ keys (getBucket m key) →
     ∃ l1 old l2,
       items (getBucket m key) = l1 ++ (key, old) :: l2 ∧ (key ∉ l1.*1)
       ∧ items (getBucket (put m key v1) key) = l1 ++ (key, v1) :: l2)
  ∧ (key ∉ keys (getBucket m key) →
     items (getBucket (put m key v1) key)
     = items (getBucket m key) ++ [(key, v1)])
  ∧ get (put (put m key v1) key v2) key = Some v2
  ∧ size (put (put m key v1) key v2)
    = size m + (if contains m key then 0 else 1)
  ∧ occurrences key (put (put (run ops new_map) key v1) key v2) = 1.
Proof.
  split_and!.
  - intros Hk. unfold CHM.put. rewrite getBucket_setBucket. simpl.
    by apply upsert_present.
  - intros Hk. unfold CHM.put. rewrite getBucket_setBucket. simpl.
    by apply upsert_absent.
  - apply get_put_same.
  - rewrite !size_put, contains_put_same. lia.
  - apply occurrences_present; [|apply put_key_present].
    do 2 apply map_inv_put. apply map_inv_run, map_inv_new.
Qed.


(** C3. Starting from the fresh map, every call of the interface keeps the
    representation invariant, so after any sequence of calls no chain holds
    the same key twice, a key that occurs in two buckets occurs in one and the
    same bucket, and at most one entry of the whole structure carries any
    given key. *)
Theorem unique_keys_invariant ops :
  let m := run ops new_map in
  map_inv new_map
  ∧ (∀ m0 op, map_inv m0 → map_inv (step op m0).2)
  ∧ (∀ i, NoDup (keys (buckets_ m !!! i)))
  ∧ (∀ key i j,
       key ∈ keys (buckets_ m !!! i) → key ∈ keys (buckets_ m !!! j) → i = j)
  ∧ (∀ key, occurrences key m ≤ 1).
Proof.
  intros m. assert (map_inv m) as Hm by apply map_inv_run, map_inv_new.
  split_and!.
  - apply map_inv_new.
  - intros m0 op. apply map_inv_step.
  - intros i. apply Hm.
  - intros key i j Hi Hj.
    destruct (Hm i) as [_ Hsi], (Hm j) as [_ Hsj].
    by rewrite <-(Hsi key Hi), <-(Hsj key Hj).
  - intros key. by apply occurrences_le_1.
Qed.



(** C6. [contains(key)] is the truth value of "[get(key)] holds a value". *)
Theorem contains_iff_get m key :
  contains m key = bool_decide (is_Some (get m key))
  ∧ (contains m key = true ↔ ∃ value, get m key = Some value)
  ∧ (contains m key = false ↔ get m key = None).
Proof.
  unfold CHM.contains. destruct (get m key) as [v|]; simpl.
  - split_and!.
    + done.
    + split; eauto.
    + split; done.
  - split_and!.
    + done.
    + split; [done | by intros [? ?]].
    + done.
Qed.

(** C7. A key that no [put] of the history inserted is not found: on the
    fresh map, and after any sequence of calls none of which is a [put] of
    that key, [get(key)] is empty and [contains(key)] is false. *)
Theorem never_inserted_absent ops key :
  Forall (λ op, inserts key op = false) ops →
  get new_map key = None
  ∧ contains new_map key = false
  ∧ get (run ops new_map) key = None
  ∧ contains (run ops new_map) key = false.
Proof.
  intros Hops. pose proof (get_run_never_inserted ops key Hops) as Hg.
  unfold CHM.contains. by rewrite Hg, get_new_map.
Qed.

(** C8. The bucket of a key is number [hash(key) mod NumBuckets], the same
    at every call.  [put] and [remove] leave every bucket with another number
    as it was, and [get] and [contains] read that one bucket only: two maps
    that agree on it give the same answers. *)
Theorem single_bucket_frame m key :
  getBucketIndex hash NumBuckets key = hash key mod NumBuckets
  ∧ fin_to_nat (slot key) = hash key mod NumBuckets
  ∧ (∀ value i, fin_to_nat i ≠ hash key mod NumBuckets →
       buckets_ (put m key value) !!! i = buckets_ m !!! i)
  ∧ (∀ i, fin_to_nat i ≠ hash key mod NumBuckets →
       buckets_ (remove m key).2 !!! i = buckets_ m !!! i)
  ∧ (∀ m', (∀ i, fin_to_nat i = hash key mod NumBuckets →
              buckets_ m' !!! i = buckets_ m !!! i) →
       get m' key = get m key ∧ contains m' key = contains m key).
Proof.
  assert (∀ i, fin_to_nat i ≠ hash key mod NumBuckets → i ≠ slot key) as Hne.
  { intros i Hi ->. by rewrite slot_index in Hi. }
  split_and!; [done | apply slot_index | | |].
  - intros value i Hi. by apply put_frame, Hne.
  - intros i Hi. by apply remove_frame, Hne.
  - intros m' Hsame.
    unfold CHM.contains, CHM.get, CHM.getBucket.
    by rewrite (Hsame (slot key) (slot_index key)).
Qed.

(** * Further properties of the member functions *)

Lemma getBucket_setBucket_ne m key key' b :
  slot key ≠ slot key' → getBucket (setBucket m key b) key' = getBucket m key'.
Proof.
  intros Hne. unfold CHM.getBucket. rewrite setBucket_lookup.
  by rewrite decide_False.
Qed.

Lemma setBucket_comm m key key' b b' :
  slot key ≠ slot key' →
  setBucket (setBucket m key b) key' b' = setBucket (setBucket m key' b') key b.
Proof.
  intros Hne. apply map_eq. intros i. rewrite !setBucket_lookup.
  repeat case_decide; congruence.
Qed.

Lemma setBucket_own m key l :
  items (getBucket m key) = l → setBucket m key (mkBucket l) = m.
Proof.
  intros Hl. rewrite <-(setBucket_getBucket m key) at 2. f_equal.
  destruct (getBucket m key). simpl in Hl. by subst.
Qed.

(** A single-key call is its critical section applied to its bucket. *)
Lemma step_in_bucket op key m :
  op_key op = Some key →
  step op m = ((in_bucket op (getBucket m key)).1,
               setBucket m key (in_bucket op (getBucket m key)).2).
Proof.
  destruct op as [k|k v|k|k| |]; intros Hk; simplify_eq/=;
    try by rewrite setBucket_getBucket.
  - done.
  - unfold CHM.remove. simpl. case_decide; simpl; [done |].
    by rewrite setBucket_getBucket.
Qed.

Lemma trace_app ops1 ops2 m :
  trace (ops1 ++ ops2) m = trace ops1 m ++ trace ops2 (run ops1 m).
Proof.
  revert m. induction ops1 as [|op ops1 IH]; intros m; simpl; [done |].
  by rewrite IH.
Qed.

Lemma run_app ops1 ops2 m : run (ops1 ++ ops2) m = run ops2 (run ops1 m).
Proof. apply foldl_app. Qed.

Lemma all_keys_length m : length (all_keys m) = size m.
Proof.
  rewrite size_chain_length_sum. unfold all_keys, chain_length_sum.
  induction (vec_to_list (buckets_ m)) as [|b l IH]; csimpl; [done |].
  rewrite length_app, IH. unfold keys. by rewrite length_fmap.
Qed.

Lemma all_keys_present m key : key ∈ all_keys m ↔ present key m.
Proof.
  unfold all_keys, present. rewrite list_elem_of_join. split.
  - intros (ks & Hk & (b & -> & Hb)%list_elem_of_fmap).
    apply elem_of_vlookup in Hb as [i <-]. by exists i.
  - intros [i Hi]. exists (keys (buckets_ m !!! i)). split; [done |].
    apply list_elem_of_fmap. eexists. split; [done |].
    apply elem_of_vlookup. by exists i.
Qed.

Lemma all_keys_count m key :
  length (filter (λ k, k = key) (all_keys m)) = occurrences key m.
Proof.
  unfold all_keys, occurrences.
  induction (vec_to_list (buckets_ m)) as [|b l IH]; csimpl; [done |].
  by rewrite filter_app, length_app, IH.
Qed.

Lemma size_run_le_puts ops m : size (run ops m) ≤ size m + count_puts ops.
Proof.
  revert m. induction ops as [|op ops IH]; intros m; [simpl; lia |].
  rewrite run_cons. etrans; [apply IH |].
  unfold count_puts. destruct op as [k|k v|k|k| |].
  - rewrite filter_cons_False by done. simpl. lia.
  - rewrite filter_cons_True by done. simpl. rewrite size_put.
    destruct (contains m k); lia.
  - rewrite filter_cons_False by done. simpl.
    pose proof (size_remove m k). lia.
  - rewrite filter_cons_False by done. simpl. lia.
  - rewrite filter_cons_False by done. simpl. lia.
  - rewrite filter_cons_False by done. simpl.
    rewrite clear_new_map, size_new_map. lia.
Qed.

Lemma get_put_decide m key value key' :
  get (put m key value) key'
  = if decide (key' = key) then Some value else get m key'.
Proof.
  case_decide as Hk; [subst; apply get_put_same | by apply get_put_ne].
Qed.

Lemma get_remove_decide m key key' :
  map_inv m →
  get (remove m key).2 key' = if decide (key' = key) then None else get m key'.
Proof.
  intros Hm. case_decide as Hk; [subst; by apply get_remove_same |].
  by apply get_remove_ne.
Qed.

(** Putting [f key] under every key of a list, in the order of the list. *)
Lemma get_foldl_put (f : Key → Value) (l : list Key) m key :
  get (foldl (λ m k, put m k (f k)) m l) key
  = if decide (key ∈ l) then Some (f key) else get m key.
Proof.
  revert m. induction l as [|k l IH]; intros m; [done |].
  cbn [foldl]. rewrite IH, get_put_decide.
  destruct (decide (key ∈ l)) as [Hl|Hl].
  - by rewrite decide_True by by right.
  - destruct (decide (key = k)) as [->|Hne].
    + by rewrite decide_True by left.
    + rewrite decide_False; [done |]. rewrite not_elem_of_cons. done.
Qed.

(** The same for a history all of whose calls are such [put]s. *)
Lemma get_run_puts (f : Key → Value) ops m key :
  Forall (λ op, ∃ k, op = Put k (f k)) ops →
  get (run ops m) key
  = if decide (Some key ∈ op_key <$> ops) then Some (f key) else get m key.
Proof.
  intros Hops. revert m. induction Hops as [|op ops [k ->] _ IH]; intros m.
  - done.
  - rewrite run_cons, IH. cbn [CHM.step snd]. rewrite get_put_decide.
    rewrite fmap_cons. cbn [op_key].
    destruct (decide (Some key ∈ op_key <$> ops)) as [Hl|Hl].
    + by rewrite decide_True by by right.
    + destruct (decide (key = k)) as [->|Hne].
      * by rewrite decide_True by left.
      * rewrite decide_False; [done |]. rewrite not_elem_of_cons.
        split; [congruence | done].
Qed.


(** X2. Lookup after removal: on a map built from the fresh one by calls of
    the interface, after [remove(key)] the call [get] is empty for [key] and
    returns what it returned before for every other key. *)
Theorem get_after_remove ops key key' :
  let m := run ops new_map in
  get (remove m key).2 key'
  = (if decide (key' = key) then None else get m key').
Proof.
  intros m. case_decide as Hk.
  - subst. apply get_remove_same, map_inv_run, map_inv_new.
  - by apply get_remove_ne.
Qed.

(** X3. The last write wins on the whole state: two [put]s of one key leave
    the map that the second alone would leave, so repeating a [put] changes
    nothing, and a [put] of the value already stored leaves the map as it
    is. *)
Theorem put_put_last_wins m key v1 v2 :
  put (put m key v1) key v2 = put m key v2
  ∧ put (put m key v1) key v1 = put m key v1
  ∧ (get m key = Some v1 → put m key v1 = m).
Proof.
  assert (∀ v, put (put m key v1) key v = put m key v) as Hpp.
  { intros v. unfold CHM.put.
    rewrite getBucket_setBucket, setBucket_setBucket. simpl.
    by rewrite upsert_upsert. }
  split_and!; [apply Hpp.. |].
  intros Hg. unfold CHM.put. apply setBucket_own. symmetry.
  by apply upsert_stored.
Qed.


(** X5. Removing twice: on a map built from the fresh one by calls of the
    interface, a second [remove] of the same key returns false and leaves
    the map as the first left it. *)
Theorem remove_twice ops key :
  let m := run ops new_map in
  remove (remove m key).2 key = (false, (remove m key).2).
Proof.
  intros m. apply remove_absent, get_None_absent, get_remove_same.
  apply map_inv_run, map_inv_new.
Qed.

(** X6. Calls on different buckets commute: when two single-key calls are
    made with keys whose bucket indices differ, either order gives each call
    the same return value and leaves the same map. *)
Theorem different_buckets_commute m op1 op2 key1 key2 :
  op_key op1 = Some key1 → op_key op2 = Some key2 →
  hash key1 mod NumBuckets ≠ hash key2 mod NumBuckets →
  (step op1 m).1 = (step op1 (step op2 m).2).1
  ∧ (step op2 m).1 = (step op2 (step op1 m).2).1
  ∧ (step op2 (step op1 m).2).2 = (step op1 (step op2 m).2).2.
Proof.
  intros H1 H2 Hne.
  assert (slot key1 ≠ slot key2) as Hs by by rewrite slot_eq.
  rewrite !(step_in_bucket op1 key1), !(step_in_bucket op2 key2) by done.
  simpl. rewrite !getBucket_setBucket_ne by done.
  split_and!; [done.. |]. by apply setBucket_comm.
Qed.

(** X7. [size()] counts the keys that [contains] finds: on a map built from
    the fresh one by calls of the interface, the keys stored in the buckets
    are pairwise distinct, there are [size()] of them, and they are exactly
    the keys for which [contains] is true. *)
Theorem size_counts_contained_keys ops :
  let m := run ops new_map in
  NoDup (all_keys m)
  ∧ length (all_keys m) = size m
  ∧ ∀ key, key ∈ all_keys m ↔ contains m key = true.
Proof.
  intros m. assert (map_inv m) as Hm by apply map_inv_run, map_inv_new.
  split_and!.
  - apply NoDup_count. intros key. rewrite all_keys_count.
    by apply occurrences_le_1.
  - apply all_keys_length.
  - intros key. by rewrite all_keys_present, present_contains.
Qed.

(** X8. [get] invents nothing: after any sequence of calls on a fresh map,
    a value returned by [get(key)] was the argument of a [put(key, value)]
    of that sequence. *)
Theorem get_only_put_values ops key value :
  get (run ops new_map) key = Some value → Put key value ∈ ops.
Proof.
  induction ops as [|op ops IH] using rev_ind.
  - by rewrite get_new_map.
  - rewrite run_snoc, elem_of_app, list_elem_of_singleton.
    assert (map_inv (run ops new_map)) as Hm by apply map_inv_run, map_inv_new.
    destruct op as [k|k v|k|k| |]; simpl; auto.
    + destruct (decide (k = key)) as [->|Hne].
      * rewrite get_put_same. intros [= ->]. by right.
      * rewrite get_put_ne by done. auto.
    + destruct (decide (k = key)) as [->|Hne].
      * by rewrite get_remove_same.
      * rewrite get_remove_ne by done. auto.
    + by rewrite clear_new_map, get_new_map.
Qed.

(** X9. [clear()] forgets the history: whatever was called before it, the
    calls made after a [clear()] return what they return on a fresh map and
    leave the map they leave on a fresh map. *)
Theorem clear_forgets_history ops1 ops2 :
  run (ops1 ++ Clear :: ops2) new_map = run ops2 new_map
  ∧ trace (ops1 ++ Clear :: ops2) new_map
    = trace ops1 new_map ++ RVoid :: trace ops2 new_map.
Proof.
  rewrite run_app, trace_app. simpl. by rewrite !clear_new_map.
Qed.

(** X10. The map never holds more entries than were put: after any sequence
    of calls on a fresh map, [size()] is at most the number of [put] calls
    of the sequence. *)
Theorem size_le_puts ops : size (run ops new_map) ≤ count_puts ops.
Proof.
  pose proof (size_run_le_puts ops new_map) as Hs.
  by rewrite size_new_map in Hs.
Qed.

(** X14. The checks that [main] of [src/test.cpp] and tests 1 to 4 of
    [testCorrectness] make, as a law of the map with the last line of [put]
    naming [bucket.items]: for every hash function and bucket count, hence
    however the keys collide, after three [put]s under distinct keys on a
    fresh map each key returns its value, a fourth key returns nothing and
    [size()] is 3; a further [put] under the first key replaces its value
    and keeps the size; [remove] of the second key then returns true, after
    which that key is gone, the first is still contained and [size()] is
    2. *)
Theorem test_scenario_checks k1 k2 k3 k4 (va va' vb vc : Value) :
  NoDup [k1; k2; k3; k4] →
  let m3 := put (put (put new_map k1 va) k2 vb) k3 vc in
  let m4 := put m3 k1 va' in
  let r := remove m4 k2 in
  get m3 k1 = Some va ∧ get m3 k2 = Some vb ∧ get m3 k3 = Some vc
  ∧ get m3 k4 = None ∧ size m3 = 3
  ∧ get m4 k1 = Some va' ∧ size m4 = 3
  ∧ r.1 = true ∧ get r.2 k2 = None
  ∧ contains r.2 k1 = true ∧ contains r.2 k2 = false
  ∧ size r.2 = 2.
Proof.
  rewrite !NoDup_cons, !not_elem_of_cons.
  intros ((H12 & H13 & H14 & _) & (H23 & H24 & _) & (H34 & _) & _).
  intros m3 m4 r.
  assert (∀ k, get m3 k
            = if decide (k = k3) then Some vc
              else if decide (k = k2) then Some vb
              else if decide (k = k1) then Some va else None) as Hg3.
  { intros k. unfold m3. by rewrite !get_put_decide, get_new_map. }
  assert (∀ k, get m4 k = if decide (k = k1) then Some va' else get m3 k)
    as Hg4 by (intros k; apply get_put_decide).
  assert (map_inv m4) as Hm4
    by (do 4 apply map_inv_put; apply map_inv_new).
  assert (size m3 = 3) as Hs3.
  { unfold m3. rewrite !size_put, size_new_map. unfold CHM.contains.
    rewrite !get_put_decide, !get_new_map.
    rewrite (decide_False (P := k2 = k1)) by congruence.
    rewrite (decide_False (P := k3 = k2)) by congruence.
    rewrite (decide_False (P := k3 = k1)) by congruence. done. }
  assert (size m4 = 3) as Hs4.
  { unfold m4. rewrite size_put. unfold CHM.contains. rewrite Hg3, Hs3.
    rewrite (decide_False (P := k1 = k3)) by congruence.
    rewrite (decide_False (P := k1 = k2)) by congruence.
    by rewrite decide_True. }
  assert (contains m4 k2 = true) as Hc2.
  { unfold CHM.contains. rewrite Hg4, Hg3.
    rewrite (decide_False (P := k2 = k1)) by congruence.
    rewrite (decide_False (P := k2 = k3)) by congruence.
    by rewrite decide_True. }
  split_and!.
  - rewrite Hg3. rewrite (decide_False (P := k1 = k3)) by congruence.
    rewrite (decide_False (P := k1 = k2)) by congruence. by rewrite decide_True.
  - rewrite Hg3. rewrite (decide_False (P := k2 = k3)) by congruence.
    by rewrite decide_True.
  - rewrite Hg3. by rewrite decide_True.
  - rewrite Hg3. rewrite (decide_False (P := k4 = k3)) by congruence.
    rewrite (decide_False (P := k4 = k2)) by congruence.
    by rewrite (decide_False (P := k4 = k1)) by congruence.
  - done.
  - rewrite Hg4. by rewrite decide_True.
  - done.
  - unfold r. by rewrite remove_result.
  - unfold r. by apply get_remove_same.
  - unfold r, CHM.contains. rewrite get_remove_decide, Hg4 by done.
    rewrite (decide_False (P := k1 = k2)) by congruence.
    by rewrite decide_True.
  - unfold r, CHM.contains. by rewrite get_remove_same.
  - pose proof (size_remove m4 k2) as Hs. rewrite Hc2, Hs4 in Hs.
    unfold r. lia.
Qed.

(** X16. Every entry sits in the bucket of its key: on a map built from the
    fresh one by calls of the interface, a key met in bucket [i] has
    [hash(key) mod NumBuckets = i]. *)
Theorem entries_in_hashed_bucket ops i key :
  key ∈ keys (buckets_ (run ops new_map) !!! i) →
  hash key mod NumBuckets = fin_to_nat i.
Proof.
  intros Hk. assert (map_inv (run ops new_map)) as Hm
    by apply map_inv_run, map_inv_new.
  destruct (Hm i) as [_ Hslot]. rewrite <-(Hslot key Hk). symmetry.
  apply slot_index.
Qed.

End Proofs.

(** * The properties at the concrete instance

    Each statement below is one of the theorems above at the four-bucket map
    of [Demo], with its assumption on the bucket count discharged. *)

Lemma put_upsert_witness :
  Demo.NumBuckets ≠ 0
  ∧ Demo.get' (Demo.put' (Demo.put' Demo.sample 1 "X") 1 "Y") 1 = Some "Y"
  ∧ size (Demo.put' (Demo.put' Demo.sample 1 "X") 1 "Y")
    = size Demo.sample
      + (if contains Demo.hash Demo.NumBuckets_nonzero Demo.sample 1
         then 0 else 1)
  ∧ occurrences 1
      (Demo.put'
         (Demo.put' (run Demo.hash Demo.NumBuckets_nonzero Demo.history Demo.fresh)
                    1 "X") 1 "Y") = 1.
Proof.
  split; [discriminate |].
  exact (proj2 (proj2
    (put_upsert Demo.hash Demo.NumBuckets Demo.NumBuckets_nonzero
       Demo.sample Demo.history 1 "X" "Y"))).
Defined.


Lemma unique_keys_invariant_witness :
  Demo.NumBuckets ≠ 0
  ∧ ∀ key,
      occurrences key (run Demo.hash Demo.NumBuckets_nonzero Demo.history Demo.fresh)
      ≤ 1.
Proof.
  split; [discriminate |].
  exact (proj2 (proj2 (proj2 (proj2
    (unique_keys_invariant Demo.hash Demo.NumBuckets Demo.NumBuckets_nonzero
       Demo.history))))).
Defined.



Lemma contains_iff_get_witness :
  Demo.NumBuckets ≠ 0
  ∧ contains Demo.hash Demo.NumBuckets_nonzero Demo.sample 5
    = bool_decide (is_Some (Demo.get' Demo.sample 5)).
Proof.
  split; [discriminate |].
  exact (proj1
    (contains_iff_get Demo.hash Demo.NumBuckets Demo.NumBuckets_nonzero
       Demo.sample 5)).
Defined.

Lemma never_inserted_absent_witness :
  Demo.NumBuckets ≠ 0
  ∧ Forall (λ op, inserts 9 op = false) Demo.history
  ∧ Demo.get' (run Demo.hash Demo.NumBuckets_nonzero Demo.history Demo.fresh) 9
    = None.
Proof.
  assert (Forall (λ op, inserts 9 op = false) Demo.history) as Hops
    by (repeat constructor).
  split; [discriminate |]. split; [exact Hops |].
  exact (proj1 (proj2 (proj2
    (never_inserted_absent Demo.hash Demo.NumBuckets Demo.NumBuckets_nonzero
       Demo.history 9 Hops)))).
Defined.

Lemma single_bucket_frame_witness :
  Demo.NumBuckets ≠ 0
  ∧ fin_to_nat (slot Demo.hash Demo.NumBuckets_nonzero 5) = 5 mod 4
  ∧ ∀ value i, fin_to_nat i ≠ 5 mod 4 →
      buckets_ (Demo.put' Demo.sample 5 value) !!! i = buckets_ Demo.sample !!! i.
Proof.
  split; [discriminate |].
  pose proof (single_bucket_frame Demo.hash Demo.NumBuckets
                Demo.NumBuckets_nonzero Demo.sample 5) as (_ & Hslot & Hput & _).
  exact (conj Hslot Hput).
Defined.

(** * The striped map against the baseline *)
Section Baseline.
Context {Key Value : Type} `{Countable Key}.
Variable hash : Key → nat.
Variable NumBuckets : nat.
Hypothesis NumBuckets_nonzero : NumBuckets ≠ 0.

Local Abbreviation Map := (ConcurrentHashMap Key Value NumBuckets).
Local Abbreviation new_map := (@new_map Key Value NumBuckets).
Local Abbreviation get := (get hash NumBuckets_nonzero).
Local Abbreviation put := (put hash NumBuckets_nonzero).
Local Abbreviation remove := (remove hash NumBuckets_nonzero).
Local Abbreviation trace := (trace hash NumBuckets_nonzero).
Local Abbreviation map_inv := (map_inv hash NumBuckets_nonzero).
Local Abbreviation agree := (MutexHashMap.agree hash NumBuckets_nonzero).

Implicit Types (m : Map) (g : MutexHashMap.MutexHashMap Key Value).

Lemma agree_put m g key value :
  agree m g → agree (put m key value) (MutexHashMap.put g key value).
Proof.
  intros Hmg key'. rewrite get_put_decide. unfold MutexHashMap.get. simpl.
  case_decide as Hk.
  - subst. by rewrite lookup_insert_eq.
  - rewrite lookup_insert_ne by done. apply Hmg.
Qed.

Lemma agree_remove m g key :
  map_inv m → agree m g →
  (remove m key).1 = (MutexHashMap.remove g key).1
  ∧ agree (remove m key).2 (MutexHashMap.remove g key).2.
Proof.
  intros Hm Hmg. split.
  - rewrite remove_result. unfold contains. rewrite Hmg.
    unfold MutexHashMap.get. simpl. by destruct (MutexHashMap.map_ g !! key).
  - intros key'. rewrite get_remove_decide by done.
    unfold MutexHashMap.get. simpl. case_decide as Hk.
    + subst. by rewrite lookup_delete_eq.
    + rewrite lookup_delete_ne by done. apply Hmg.
Qed.

Lemma trace_agree cs m g :
  map_inv m → agree m g →
  trace (MutexHashMap.to_op <$> cs) m = MutexHashMap.trace cs g.
Proof.
  revert m g. induction cs as [|c cs IH]; intros m g Hm Hmg; [done |].
  destruct c as [key|key value|key]; csimpl.
  - rewrite Hmg. f_equal. by apply IH.
  - f_equal. apply IH; [by apply map_inv_put | by apply agree_put].
  - destruct (agree_remove m g key Hm Hmg) as [Hr Ha].
    rewrite Hr. f_equal. apply IH; [by apply map_inv_remove | done].
Qed.


End Baseline.

(** * The programs *)
Section Schedules.
Context {A : Type}.
Implicit Types (threads : list (list A)) (schedule : list nat).

Lemma join_insert_head threads t call rest x :
  threads !! t = Some (call :: rest) →
  x ∈ mjoin threads ↔ x = call ∨ x ∈ mjoin (<[t := rest]> threads).
Proof.
  intros Ht. pose proof (lookup_lt_Some _ _ _ Ht) as Hlt.
  rewrite insert_take_drop by done.
  rewrite <-(take_drop_middle threads t (call :: rest)) at 1 by done.
  rewrite !join_app. csimpl.
  rewrite !elem_of_app, elem_of_cons, !elem_of_app. tauto.
Qed.

(** A schedule loses no call and invents none: the calls of the threads are
    those that ran together with those still to run. *)
Lemma linearize_elem schedule threads x :
  x ∈ mjoin threads
  ↔ x ∈ (Harness.linearize schedule threads).1
    ∨ x ∈ mjoin (Harness.linearize schedule threads).2.
Proof.
  revert threads. induction schedule as [|t schedule IH]; intros threads; simpl.
  - rewrite elem_of_nil. tauto.
  - destruct (threads !! t) as [[|call rest]|] eqn:Ht; [apply IH | | apply IH].
    simpl. rewrite elem_of_cons, (join_insert_head _ _ _ _ _ Ht).
    rewrite (IH (<[t := rest]> threads)). tauto.
Qed.

Lemma all_joined_join threads :
  Harness.all_joined threads = true → mjoin threads = [].
Proof.
  induction threads as [|l threads IH]; [done |].
  simpl. intros [Hl Hrest]%andb_prop.
  apply bool_decide_eq_true in Hl as ->. by apply IH.
Qed.

Lemma linearize_joined schedule threads x :
  Harness.all_joined (Harness.linearize schedule threads).2 = true →
  x ∈ (Harness.linearize schedule threads).1 ↔ x ∈ mjoin threads.
Proof.
  intros Hj%all_joined_join. rewrite (linearize_elem schedule threads).
  rewrite Hj, elem_of_nil. tauto.
Qed.

End Schedules.

Section Programs.
Variable hash : Z → nat.

Local Open Scope Z_scope.

Local Abbreviation nz := Harness.DefaultBuckets_nonzero.
Local Abbreviation writers := Harness.writers.

Lemma lookup_foldl_put (f : Z → Z) (l : list Z) g key :
  MutexHashMap.get
    (foldl (λ map i, MutexHashMap.put map i (f i)) g l) key
  = if decide (key ∈ l) then Some (f key) else MutexHashMap.get g key.
Proof.
  revert g. induction l as [|k l IH]; intros g; [done |].
  cbn [foldl]. rewrite IH. unfold MutexHashMap.get, MutexHashMap.put.
  cbn [MutexHashMap.map_].
  destruct (decide (key ∈ l)) as [Hl|Hl].
  - by rewrite decide_True by by right.
  - destruct (decide (key = k)) as [->|Hne].
    + rewrite decide_True by left. by rewrite lookup_insert_eq.
    + rewrite decide_False by (rewrite not_elem_of_cons; done).
      by rewrite lookup_insert_ne.
Qed.


Lemma writers_calls :
  Forall (λ op : Op Z Z, ∃ k, op = Put k (k * 2)) (mjoin writers).
Proof.
  apply Forall_forall. intros op (l & Hop & Hl)%list_elem_of_join.
  apply list_elem_of_fmap in Hl as (t & -> & _).
  apply list_elem_of_fmap in Hop as (i & -> & _). by eexists.
Qed.

Lemma writers_keys key :
  Some key ∈ op_key <$> mjoin writers ↔ 0 ≤ key < 10000.
Proof.
  rewrite list_elem_of_fmap. split.
  - intros (op & Hk & (l & Hop & Hl)%list_elem_of_join).
    apply list_elem_of_fmap in Hl as (t & -> & Ht%elem_of_seqZ).
    apply list_elem_of_fmap in Hop as (i & -> & Hi%elem_of_seqZ).
    simpl in Hk. injection Hk as ->. lia.
  - intros Hkey. exists (Put key (key * 2)). split; [done |].
    apply list_elem_of_join. exists (Harness.writer (key `div` 1000)). split.
    + apply list_elem_of_fmap. exists (key `mod` 1000). split.
      * pose proof (Z.div_mod key 1000). f_equal; lia.
      * apply elem_of_seqZ. pose proof (Z.mod_pos_bound key 1000). lia.
    + apply list_elem_of_fmap. eexists. split; [done |].
      apply elem_of_seqZ.
      pose proof (Z.div_le_upper_bound key 1000 9).
      pose proof (Z.div_pos key 1000).
      split; [lia |]. apply Z.div_lt_upper_bound; lia.
Qed.

(** X13. Test 5 of [testCorrectness], read against the header with the
    last line of [put] naming [bucket.items] and with every [put] taken as
    one indivisible step: whatever the order in which the calls of the ten
    writing threads follow one another, once all threads have run to their
    end [get] returns [key * 2] for each of the keys [0 .. 9999] and nothing
    for any other key, so every check of the verifying threads finds its
    value and none of them has cause to clear [all_correct]. *)
Theorem concurrent_inserts_all_found schedule :
  Harness.all_joined (Harness.linearize schedule writers).2 = true →
  let concurrent_map :=
    run hash nz (Harness.linearize schedule writers).1
        (new_map Harness.DefaultBuckets) in
  (∀ key,
     get hash nz concurrent_map key
     = if decide (0 ≤ key < 10000) then Some (key * 2) else None)
  ∧ Harness.verify hash nz concurrent_map = true.
Proof.
  intros Hj concurrent_map.
  assert (∀ key,
     get hash nz concurrent_map key
     = if decide (0 ≤ key < 10000) then Some (key * 2) else None) as Hget.
  { intros key. unfold concurrent_map.
    rewrite (get_run_puts hash _ nz (λ k, k * 2)).
    - rewrite get_new_map.
      destruct (decide (0 ≤ key < 10000)) as [Hk|Hk].
      + rewrite decide_True; [done |].
        apply writers_keys in Hk.
        apply list_elem_of_fmap in Hk as (op & Hop & Hin).
        apply list_elem_of_fmap. exists op. split; [done |].
        by apply linearize_joined.
      + rewrite decide_False; [done |]. intros Hin. apply Hk, writers_keys.
        apply list_elem_of_fmap in Hin as (op & Hop & Hin).
        apply list_elem_of_fmap. exists op. split; [done |].
        by apply (linearize_joined schedule).
    - apply Forall_forall. intros op Hop%linearize_joined; [|done].
      revert op Hop. apply Forall_forall, writers_calls. }
  split; [done |].
  unfold Harness.verify. apply forallb_forall.
  intros key Hkey%list_elem_of_In%elem_of_seqZ.
  apply bool_decide_eq_true. rewrite Hget. by rewrite decide_True by lia.
Qed.

(** X17. While [runBenchmark] works on a map that was empty when it was
    handed over, every value the map holds is ten times its key: after the
    filling loop and any sequence of worker calls, whatever keys and branches
    the random numbers select and in whatever order the calls of the threads
    follow one another, a value returned by [get(key)] is [key * 10]. *)
Theorem benchmark_values {NumBuckets} (Hnz : NumBuckets ≠ 0%nat)
    (draws : list (Z * bool * bool)) key value :
  let calls := (λ d, Harness.worker_call d.1.1 d.1.2 d.2) <$> draws in
  get hash Hnz
    (run hash Hnz (MutexHashMap.to_op <$> calls)
         (Harness.prepopulate hash Hnz (new_map NumBuckets))) key
  = Some value →
  value = key * 10.
Proof.
  intros calls. subst calls.
  set (good (m : ConcurrentHashMap Z Z NumBuckets) :=
         map_inv hash Hnz m ∧ ∀ k v, get hash Hnz m k = Some v → v = k * 10).
  assert (good (Harness.prepopulate hash Hnz (new_map NumBuckets))) as Hstart.
  { split.
    - unfold Harness.prepopulate. generalize (seqZ 0 1000).
      intros l. generalize (map_inv_new hash NumBuckets Hnz (Value := Z)).
      generalize (new_map NumBuckets : ConcurrentHashMap Z Z NumBuckets).
      induction l as [|i l IH]; intros m Hm; [done |].
      cbn [foldl]. by apply IH, map_inv_put.
    - intros k v. unfold Harness.prepopulate.
      rewrite (get_foldl_put hash NumBuckets Hnz (λ i, i * 10)), get_new_map.
      case_decide; [by intros [= <-] | done]. }
  revert Hstart. generalize (Harness.prepopulate hash Hnz (new_map NumBuckets)).
  intros m Hm Hget. revert m Hm key value Hget.
  induction draws as [|[[k read] write] draws IH]; intros m [Hinv Hval] key value.
  { apply Hval. }
  rewrite fmap_cons. cbn [fst snd]. rewrite fmap_cons, run_cons.
  apply IH. unfold Harness.worker_call.
  destruct read; [done |]. destruct write; cbn [MutexHashMap.to_op step snd].
  - split; [by apply map_inv_put |]. intros k' v'.
    rewrite get_put_decide. case_decide; [subst; by intros [= <-] | apply Hval].
  - split; [by apply map_inv_remove |]. intros k' v'.
    rewrite get_remove_decide by done. case_decide; [done | apply Hval].
Qed.

End Programs.

(** * The further properties at concrete instances *)


Lemma get_after_remove_witness :
  Demo.NumBuckets ≠ 0
  ∧ Demo.get'
      (Demo.remove' (run Demo.hash Demo.NumBuckets_nonzero Demo.history Demo.fresh) 1).2
      5
    = (if decide (5 = 1) then None
       else Demo.get' (run Demo.hash Demo.NumBuckets_nonzero Demo.history Demo.fresh) 5).
Proof.
  split; [discriminate |].
  exact (get_after_remove Demo.hash Demo.NumBuckets Demo.NumBuckets_nonzero
           Demo.history 1 5).
Defined.

Lemma put_put_last_wins_witness :
  Demo.NumBuckets ≠ 0
  ∧ Demo.put' (Demo.put' Demo.sample 5 "X") 5 "Y" = Demo.put' Demo.sample 5 "Y".
Proof.
  split; [discriminate |].
  exact (proj1
    (put_put_last_wins Demo.hash Demo.NumBuckets Demo.NumBuckets_nonzero
       Demo.sample 5 "X" "Y")).
Defined.


Lemma remove_twice_witness :
  Demo.NumBuckets ≠ 0
  ∧ Demo.remove'
      (Demo.remove' (run Demo.hash Demo.NumBuckets_nonzero Demo.history Demo.fresh) 1).2
      1
    = (false,
       (Demo.remove' (run Demo.hash Demo.NumBuckets_nonzero Demo.history Demo.fresh) 1).2).
Proof.
  split; [discriminate |].
  exact (remove_twice Demo.hash Demo.NumBuckets Demo.NumBuckets_nonzero
           Demo.history 1).
Defined.

Lemma different_buckets_commute_witness :
  Demo.NumBuckets ≠ 0
  ∧ Demo.hash 1 mod Demo.NumBuckets ≠ Demo.hash 2 mod Demo.NumBuckets
  ∧ (step Demo.hash Demo.NumBuckets_nonzero (Remove 2)
       (step Demo.hash Demo.NumBuckets_nonzero (Put 1 "Z") Demo.sample).2).2
    = (step Demo.hash Demo.NumBuckets_nonzero (Put 1 "Z")
         (step Demo.hash Demo.NumBuckets_nonzero (Remove 2) Demo.sample).2).2.
Proof.
  assert (Demo.hash 1 mod Demo.NumBuckets ≠ Demo.hash 2 mod Demo.NumBuckets)
    as Hne by (vm_compute; discriminate).
  split; [discriminate |]. split; [exact Hne |].
  exact (proj2 (proj2
    (different_buckets_commute Demo.hash Demo.NumBuckets Demo.NumBuckets_nonzero
       Demo.sample (Put 1 "Z") (Remove 2) 1 2 eq_refl eq_refl Hne))).
Defined.

Lemma size_counts_contained_keys_witness :
  Demo.NumBuckets ≠ 0
  ∧ length (all_keys (run Demo.hash Demo.NumBuckets_nonzero Demo.history Demo.fresh))
    = size (run Demo.hash Demo.NumBuckets_nonzero Demo.history Demo.fresh).
Proof.
  split; [discriminate |].
  exact (proj1 (proj2
    (size_counts_contained_keys Demo.hash Demo.NumBuckets Demo.NumBuckets_nonzero
       Demo.history))).
Defined.

Lemma get_only_put_values_witness :
  Demo.NumBuckets ≠ 0
  ∧ Demo.get' (run Demo.hash Demo.NumBuckets_nonzero Demo.history Demo.fresh) 1
    = Some "A2"
  ∧ Put 1 "A2" ∈ Demo.history.
Proof.
  assert (Demo.get' (run Demo.hash Demo.NumBuckets_nonzero Demo.history Demo.fresh) 1
          = Some "A2") as Hg by (vm_compute; reflexivity).
  split; [discriminate |]. split; [exact Hg |].
  exact (get_only_put_values Demo.hash Demo.NumBuckets Demo.NumBuckets_nonzero
           Demo.history 1 "A2" Hg).
Defined.

Lemma clear_forgets_history_witness :
  Demo.NumBuckets ≠ 0
  ∧ run Demo.hash Demo.NumBuckets_nonzero
      (Demo.history ++ Clear :: [Put 7 "S"; Get 7]) Demo.fresh
    = run Demo.hash Demo.NumBuckets_nonzero [Put 7 "S"; Get 7] Demo.fresh.
Proof.
  split; [discriminate |].
  exact (proj1
    (clear_forgets_history Demo.hash Demo.NumBuckets Demo.NumBuckets_nonzero
       Demo.history [Put 7 "S"; Get 7])).
Defined.

Lemma size_le_puts_witness :
  Demo.NumBuckets ≠ 0
  ∧ size (run Demo.hash Demo.NumBuckets_nonzero Demo.history Demo.fresh)
    ≤ count_puts Demo.history.
Proof.
  split; [discriminate |].
  exact (size_le_puts Demo.hash Demo.NumBuckets Demo.NumBuckets_nonzero
           Demo.history).
Defined.



(** Thread 0 runs to its end, then thread 1, and so on. *)
Lemma concurrent_inserts_all_found_witness :
  Harness.all_joined
    (Harness.linearize (mjoin (replicate 1000 <$> seq 0 10)) Harness.writers).2
  = true
  ∧ Harness.verify Z.to_nat Harness.DefaultBuckets_nonzero
      (run Z.to_nat Harness.DefaultBuckets_nonzero
         (Harness.linearize (mjoin (replicate 1000 <$> seq 0 10))
            Harness.writers).1
         (new_map Harness.DefaultBuckets))
    = true.
Proof.
  assert (Harness.all_joined
            (Harness.linearize (mjoin (replicate 1000 <$> seq 0 10))
               Harness.writers).2
          = true) as Hj by (vm_compute; reflexivity).
  split; [exact Hj |].
  exact (proj2
    (concurrent_inserts_all_found Z.to_nat
       (mjoin (replicate 1000 <$> seq 0 10)) Hj)).
Defined.

Lemma entries_in_hashed_bucket_witness :
  Demo.NumBuckets ≠ 0
  ∧ 5 ∈ keys (buckets_ (run Demo.hash Demo.NumBuckets_nonzero Demo.history Demo.fresh)
               !!! 1%fin)
  ∧ Demo.hash 5 mod Demo.NumBuckets = fin_to_nat (1%fin : fin Demo.NumBuckets).
Proof.
  assert (5 ∈ keys (buckets_
            (run Demo.hash Demo.NumBuckets_nonzero Demo.history Demo.fresh)
            !!! 1%fin)) as Hk by (vm_compute; repeat constructor).
  split; [discriminate |]. split; [exact Hk |].
  exact (entries_in_hashed_bucket Demo.hash Demo.NumBuckets
           Demo.NumBuckets_nonzero Demo.history 1%fin 5 Hk).
Defined.

Lemma benchmark_values_witness :
  Demo.NumBuckets ≠ 0
  ∧ get Z.to_nat Demo.NumBuckets_nonzero
      (run Z.to_nat Demo.NumBuckets_nonzero
         (MutexHashMap.to_op <$>
            ((λ d, Harness.worker_call d.1.1 d.1.2 d.2) <$>
               [(7%Z, false, false); (7%Z, false, true); (3%Z, true, false)]))
         (Harness.prepopulate Z.to_nat Demo.NumBuckets_nonzero
            (new_map Demo.NumBuckets))) 7%Z
    = Some 70%Z
  ∧ 70%Z = (7 * 10)%Z.
Proof.
  assert (get Z.to_nat Demo.NumBuckets_nonzero
      (run Z.to_nat Demo.NumBuckets_nonzero
         (MutexHashMap.to_op <$>
            ((λ d, Harness.worker_call d.1.1 d.1.2 d.2) <$>
               [(7%Z, false, false); (7%Z, false, true); (3%Z, true, false)]))
         (Harness.prepopulate Z.to_nat Demo.NumBuckets_nonzero
            (new_map Demo.NumBuckets))) 7%Z
    = Some 70%Z) as Hg by (vm_compute; reflexivity).
  split; [discriminate |]. split; [exact Hg |].
  exact (benchmark_values Z.to_nat Demo.NumBuckets_nonzero
           [(7%Z, false, false); (7%Z, false, true); (3%Z, true, false)]
           7%Z 70%Z Hg).
Defined.

(** Four keys that share one bucket of the four-bucket map. *)
Lemma test_scenario_checks_witness :
  Demo.NumBuckets ≠ 0
  ∧ NoDup [1; 5; 9; 13]
  ∧ size
      (Demo.remove'
         (Demo.put'
            (Demo.put' (Demo.put' (Demo.put' Demo.fresh 1 "Alice") 5 "Bob")
                       9 "Charlie")
            1 "Alice Updated") 5).2
    = 2.
Proof.
  assert (NoDup [1; 5; 9; 13]) as Hnd
    by (apply (bool_decide_unpack (NoDup [1; 5; 9; 13])); vm_compute; exact I).
  split; [discriminate |]. split; [exact Hnd |].
  pose proof (test_scenario_checks Demo.hash Demo.NumBuckets
                Demo.NumBuckets_nonzero 1 5 9 13
                "Alice" "Alice Updated" "Bob" "Charlie" Hnd) as Hall.
  cbv zeta in Hall. exact (proj2 (proj2 (proj2 (proj2 (proj2 (proj2 (proj2
    (proj2 (proj2 (proj2 (proj2 Hall))))))))))).
Defined.
